(** * Request-logging middleware (logging_middleware.go)

    A shallow embedding of the [handlers] package: the rule table built by
    [NewLoggingMiddlewareWithFilters], the level selection and the field
    construction done by [Apply], and the start/completed logging protocol
    around the wrapped handler.

    Conventions.
    - A Go [map] is a [gmap]; a [range] loop over it runs over the entries in
      an order chosen by a [Schedule] (any permutation, as the language leaves
      the order open).
    - [regexp], [net/url], [logrus] and [negroni] are libraries: the regexp
      engine is an interface ([RegexpEngine]), the URL renderer a section
      variable; logrus loggers and negroni's recorder are modelled by their
      documented contract.
    - Effects are explicit: a computation is a function from a [World] to an
      [Outcome], which is a normal return or a halt (a process exit, a panic,
      a call that never returns). *)

From Stdlib Require Import Ascii.
From stdpp Require Import gmap strings list fin_maps.

Local Open Scope string_scope.

(** ** logrus levels *)

(** [logrus.Level] is a [uint32]; the named levels are its first values. *)
Abbreviation Level := N (only parsing).

Definition PanicLevel : Level := 0%N.
Definition FatalLevel : Level := 1%N.
Definition ErrorLevel : Level := 2%N.
Definition WarnLevel  : Level := 3%N.
Definition InfoLevel  : Level := 4%N.
Definition DebugLevel : Level := 5%N.

(** The emission methods of [logrus.FieldLogger] named by [loggerFuncMap]. *)
Inductive LogFunc : Type :=
  | Debugf | Infof | Warnf | Errorf | Fatalf | Panicf.

Definition loggerFuncMap : gmap N LogFunc :=
  <[DebugLevel := Debugf]>
  (<[InfoLevel := Infof]>
  (<[WarnLevel := Warnf]>
  (<[ErrorLevel := Errorf]>
  (<[FatalLevel := Fatalf]>
  (<[PanicLevel := Panicf]> ∅))))).

(** ** Errors *)

(** Go [error] values: a nil interface is [None]. [ErrNew] stands for an error
    created by some library or handler, [Notef] for [errgo.Notef]. *)
Inductive err : Type :=
  | ErrNew (msg : string)
  | Notef (underlying : err) (msg : string).

Abbreviation error := (option err) (only parsing).

(** ** The regexp engine *)

Class RegexpEngine : Type := {
  Regexp : Type;
  (** [regexp.Compile]: the compiled expression, or the syntax error. *)
  Compile : string → Regexp + err;
  (** [Regexp.MatchString]: does the text contain a match. *)
  MatchString : Regexp → string → bool
}.

(** ** Map iteration *)

(** The order in which a [range] loop visits the entries of a map. *)
Record Schedule : Type := {
  range_order : ∀ V : Type, list (string * V) → list (string * V);
  range_order_perm : ∀ (V : Type) (l : list (string * V)), range_order V l ≡ₚ l
}.

Definition range {V : Type} (sched : Schedule) (m : gmap string V) : list (string * V) :=
  range_order sched V (map_to_list m).

Definition in_order : Schedule :=
  {| range_order := λ V l, l; range_order_perm := λ V l, reflexivity l |}.

Definition in_reverse : Schedule :=
  {| range_order := λ V l, reverse l; range_order_perm := λ V l, reverse_Permutation l |}.

(** ** Loggers *)

Inductive FieldValue : Type :=
  | FString (s : string)
  | FInt (n : Z)
  (** the [float64] number of seconds of a duration given in nanoseconds *)
  | FSeconds (nanoseconds : Z).

(** [logrus.Fields] *)
Abbreviation Fields := (gmap string FieldValue) (only parsing).

(** A [logrus.FieldLogger]: where it writes, and the fields it carries. *)
Record Logger : Type := {
  Out : N;
  Data : gmap string FieldValue
}.

(** New fields shadow the fields of the same name that the logger carries. *)
Definition WithFields (logger : Logger) (fields : gmap string FieldValue) : Logger :=
  {| Out := Out logger; Data := fields ∪ Data logger |}.

Definition WithField (logger : Logger) (key : string) (value : FieldValue) : Logger :=
  WithFields logger {[ key := value ]}.

(** ** Requests *)

(** What a [context.Context] can hold under a key: a string, a logger, or a
    value of some other dynamic type. *)
Inductive Value : Type :=
  | VString (s : string)
  | VLogger (l : Logger)
  | VOther (tag : N).

(** [net/url.URL], the fields a server request carries. *)
Record URL : Type := {
  Scheme : string;
  Path : string;
  RawQuery : string;
  Fragment : string
}.

(** [net/http.Request]. [Header] is keyed by canonical header names; [ctx] is
    the request context restricted to its string keys ([Value] is a lookup,
    [context.WithValue] an insertion that shadows). *)
Record Request : Type := {
  Method : string;
  Url : URL;
  Proto : string;
  Header : gmap string (list string);
  Host : string;
  RemoteAddr : string;
  ctx : gmap string Value
}.

(** [http.Header.Get]: the first value of the header, or the empty string. *)
Definition Header_Get (h : gmap string (list string)) (key : string) : string :=
  match h !! key with
  | Some (v :: _) => v
  | _ => ""
  end.

Definition Referer (r : Request) : string := Header_Get (Header r) "Referer".
Definition UserAgent (r : Request) : string := Header_Get (Header r) "User-Agent".

Definition WithContext (r : Request) (c : gmap string Value) : Request :=
  {| Method := Method r; Url := Url r; Proto := Proto r; Header := Header r;
     Host := Host r; RemoteAddr := RemoteAddr r; ctx := c |}.

(** ** The world a handler runs in *)

(** An [http.ResponseWriter] is the server's own writer or a negroni recorder
    (by its address in the world). *)
Inductive ResponseWriter : Type :=
  | RawWriter (id : nat)
  | Recording (addr : nat).

(** The state of a negroni response writer: the writer it wraps, the status
    (0 until one is written) and the number of bytes written. *)
Record Recorder : Type := {
  underlying : ResponseWriter;
  rw_status : Z;
  rw_size : Z
}.

(** One call of an emission method on a logger. *)
Record Entry : Type := {
  entry_func : LogFunc;
  entry_logger : Logger;
  entry_message : string
}.

Record World : Type := {
  clock : Z;                  (** the wall clock, in nanoseconds *)
  log : list Entry;           (** the emission calls made so far *)
  recorders : list Recorder   (** the negroni writers allocated so far *)
}.

(** Why a computation does not return to its caller. *)
Inductive Halt : Type :=
  | Exit (code : Z)           (** [os.Exit] *)
  | Panic (reason : string)   (** a panic unwinding the stack *)
  | Blocked.                  (** the call never returns *)

Inductive Outcome (A : Type) : Type :=
  | Returns (a : A) (σ : World)
  | Halts (why : Halt) (σ : World).
Arguments Returns {A} a σ.
Arguments Halts {A} why σ.

Definition M (A : Type) : Type := World → Outcome A.

#[global] Instance M_ret : MRet M := λ A a σ, Returns a σ.

(** Sequencing: what halts the first computation halts the whole. *)
#[global] Instance M_bind : MBind M := λ A B k c σ,
  match c σ with
  | Returns a σ' => k a σ'
  | Halts why σ' => Halts why σ'
  end.

(** [time.Now] *)
Definition time_Now : M Z := λ σ, Returns (clock σ) σ.

Definition record (e : Entry) (σ : World) : World :=
  {| clock := clock σ; log := log σ ++ [e]; recorders := recorders σ |}.

(** The emission methods: each hands the entry to the logger; [Fatalf] then
    exits the process and [Panicf] panics. *)
Definition logf (f : LogFunc) (logger : Logger) (msg : string) : M unit :=
  λ σ, let σ' := record {| entry_func := f; entry_logger := logger; entry_message := msg |} σ in
       match f with
       | Fatalf => Halts (Exit 1) σ'
       | Panicf => Halts (Panic msg) σ'
       | _ => Returns tt σ'
       end.

(** [loggerFuncMap[loglevel](logger, msg)]: a level that is not a key of the
    map gives the nil function, and calling it panics. *)
Definition call_loggerFunc (loglevel : Level) (logger : Logger) (msg : string) : M unit :=
  match loggerFuncMap !! loglevel with
  | Some f => logf f logger msg
  | None => Halts (Panic "invalid memory address or nil pointer dereference")
  end.

(** [negroni.NewResponseWriter] *)
Definition NewResponseWriter (w : ResponseWriter) : M nat :=
  λ σ, Returns (length (recorders σ))
         {| clock := clock σ; log := log σ;
            recorders := recorders σ ++ [{| underlying := w; rw_status := 0; rw_size := 0 |}] |}.

Definition Status (rw : nat) : M Z :=
  λ σ, Returns (default 0%Z (rw_status <$> recorders σ !! rw)) σ.

Definition Size (rw : nat) : M Z :=
  λ σ, Returns (default 0%Z (rw_size <$> recorders σ !! rw)) σ.

(** [WriteHeader] on a negroni writer: it records the status and passes the
    call on to the writer it wraps. [fuel] bounds the chain of wrappers. *)
Fixpoint write_header (fuel : nat) (w : ResponseWriter) (code : Z)
    (rs : list Recorder) : list Recorder :=
  match fuel, w with
  | S fuel', Recording addr =>
      match rs !! addr with
      | Some rec =>
          write_header fuel' (underlying rec) code
            (<[addr := {| underlying := underlying rec; rw_status := code; rw_size := rw_size rec |}]> rs)
      | None => rs
      end
  | _, _ => rs
  end.

Definition WriteHeader (w : ResponseWriter) (code : Z) : M unit :=
  λ σ, Returns tt {| clock := clock σ; log := log σ;
                     recorders := write_header (length (recorders σ)) w code (recorders σ) |}.

Definition HandlerFunc : Type :=
  ResponseWriter → Request → gmap string string → M error.

(** ** The middleware *)

Section Middleware.
Context `{engine : RegexpEngine}.
(** The order of the [range] loops, and [URL.String]. *)
Context (sched : Schedule) (URL_String : URL → string).

Record patternInfo : Type := {
  re : Regexp;
  level : Level
}.

Record LoggingMiddleware : Type := {
  logger : Logger;
  filters : list patternInfo
}.

Definition NewLoggingMiddleware (logger : Logger) : LoggingMiddleware :=
  {| logger := logger; filters := [] |}.

(** The loop of [NewLoggingMiddlewareWithFilters] over the entries still to
    visit; [refilters] is the slice built so far. *)
Fixpoint compile_filters (entries : list (string * Level)) (refilters : list patternInfo)
  : list patternInfo + err :=
  match entries with
  | [] => inl refilters
  | (pattern, level) :: entries' =>
      match Compile pattern with
      | inr e => inr (Notef e ("invalid regexp '" ++ pattern ++ "'"))
      | inl re => compile_filters entries' (refilters ++ [{| re := re; level := level |}])
      end
  end.

(** The two results of the Go function: the middleware pointer (nil on
    failure) and the error (nil on success). *)
Definition NewLoggingMiddlewareWithFilters
    (logger : Logger) (filters : gmap string Level)
  : option LoggingMiddleware * error :=
  match compile_filters (range sched filters) [] with
  | inr e => (None, Some e)
  | inl refilters => (Some {| logger := logger; filters := refilters |}, None)
  end.

(** The fields literal of [Apply] (lines 66-74). *)
Definition request_fields (r : Request) : gmap string string :=
  <["method" := Method r]>
  (<["path" := URL_String (Url r)]>
  (<["host" := Host r]>
  (<["from" := RemoteAddr r]>
  (<["protocol" := Proto r]>
  (<["referer" := Referer r]>
  (<["user_agent" := UserAgent r]> ∅)))))).

(** One turn of the loop of lines 75-79. An entry deleted before the loop
    reaches it is not produced. *)
Definition delete_if_empty (fields : gmap string string) (kv : string * string)
  : gmap string string :=
  match fields !! kv.1 with
  | Some v => if (String.length v =? 0)%nat then delete kv.1 fields else fields
  | None => fields
  end.

Definition delete_empty (fields : gmap string string) : gmap string string :=
  foldl delete_if_empty fields (range sched fields).

(** The field set attached to the logger on line 80. *)
Definition BuildFields (r : Request) : gmap string FieldValue :=
  FString <$> delete_empty (request_fields r).

(** The level selection loop of [Apply] (lines 82-87). *)
Definition SelectLevel (filters : list patternInfo) (path : string) : Level :=
  foldl (λ loglevel info, if MatchString (re info) path then level info else loglevel)
        InfoLevel filters.

(** Lines 59-62: the logger with the request id, when the context has one
    that is a string. *)
Definition request_logger (logger : Logger) (r : Request) : Logger :=
  match ctx r !! "request_id" with
  | Some (VString id) => WithField logger "request_id" (FString id)
  | _ => logger
  end.

(** Lines 94-97. *)
Definition effective_status (status : Z) : Z :=
  if (status =? 0)%Z then 200%Z else status.

(** Lines 99-103. *)
Definition completion_fields (status before after size : Z) : gmap string FieldValue :=
  <["status" := FInt status]>
  (<["duration" := FSeconds (after - before)]>
  (<["bytes" := FInt size]> ∅)).

Definition Apply (l : LoggingMiddleware) (next : HandlerFunc) : HandlerFunc :=
  λ w r vars,
    (let logger0 := logger l in
     before ← time_Now;
     let logger1 := request_logger logger0 r in
     let r := WithContext r (<["logger" := VLogger logger1]> (ctx r)) in
     let fields := BuildFields r in
     let logger2 := WithFields logger1 fields in
     let loglevel := SelectLevel (filters l) (Path (Url r)) in
     call_loggerFunc loglevel logger2 "starting request";;
     rw ← NewResponseWriter w;
     err ← next (Recording rw) r vars;
     after ← time_Now;
     status ← Status rw;
     let status := effective_status status in
     size ← Size rw;
     let logger3 := WithFields logger2 (completion_fields status before after size) in
     call_loggerFunc loglevel logger3 "request completed";;
     mret err).

(** *** Names used to state the properties *)

(** Does the pattern compile. *)
Definition valid (pattern : string) : bool :=
  match Compile pattern with
  | inl _ => true
  | inr _ => false
  end.

(** The rule built from an entry of the mapping. *)
Definition rule_of (entry : string * Level) (info : patternInfo) : Prop :=
  Compile entry.1 = inl (re info) ∧ level info = entry.2.

(** The rules that match a path, in list order. *)
Definition matching (path : string) (filters : list patternInfo) : list patternInfo :=
  List.filter (λ info, MatchString (re info) path) filters.

(** One turn of the selection loop. *)
Definition select_step (path : string) (loglevel : Level) (info : patternInfo) : Level :=
  if MatchString (re info) path then level info else loglevel.

(** The seven field names of the literal. *)
Definition field_names : list string :=
  ["method"; "path"; "host"; "from"; "protocol"; "referer"; "user_agent"].

(** *** Names for the values [Apply] computes *)

(** Line 82-87 on the request. *)
Definition loglevel_of (l : LoggingMiddleware) (r : Request) : Level :=
  SelectLevel (filters l) (Path (Url r)).

(** The request handed to the wrapped handler (line 64). *)
Definition inner_request (l : LoggingMiddleware) (r : Request) : Request :=
  WithContext r (<["logger" := VLogger (request_logger (logger l) r)]> (ctx r)).

(** The logger both entries are emitted on (line 80). *)
Definition emission_logger (l : LoggingMiddleware) (r : Request) : Logger :=
  WithFields (request_logger (logger l) r) (BuildFields (inner_request l r)).

Definition start_entry (l : LoggingMiddleware) (r : Request) (f : LogFunc) : Entry :=
  {| entry_func := f; entry_logger := emission_logger l r;
     entry_message := "starting request" |}.

(** The world the wrapped handler starts in: the start entry is logged and
    the recorder allocated. *)
Definition inner_world (l : LoggingMiddleware) (r : Request) (f : LogFunc)
    (w : ResponseWriter) (σ : World) : World :=
  {| clock := clock σ;
     log := log σ ++ [start_entry l r f];
     recorders := recorders σ ++ [{| underlying := w; rw_status := 0; rw_size := 0 |}] |}.

(** What the recorder at [rw] shows in a world. *)
Definition observed_status (rw : nat) (σ : World) : Z :=
  default 0%Z (rw_status <$> recorders σ !! rw).
Definition observed_size (rw : nat) (σ : World) : Z :=
  default 0%Z (rw_size <$> recorders σ !! rw).

(** The completion entry, from the world the wrapped handler returned in. *)
Definition completed_entry (l : LoggingMiddleware) (r : Request) (f : LogFunc)
    (before : Z) (rw : nat) (σ2 : World) : Entry :=
  {| entry_func := f;
     entry_logger :=
       WithFields (emission_logger l r)
         (completion_fields (effective_status (observed_status rw σ2))
            before (clock σ2) (observed_size rw σ2));
     entry_message := "request completed" |}.

(** Does the emission method return to its caller. *)
Definition returns_to_caller (f : LogFunc) : bool :=
  match f with
  | Fatalf | Panicf => false
  | _ => true
  end.

Definition halt_of (f : LogFunc) (msg : string) : Halt :=
  match f with
  | Fatalf => Exit 1
  | _ => Panic msg
  end.

End Middleware.

(** ** A regexp engine for a fragment of the syntax

    The theorems below hold for every engine. This one makes them concrete: it
    implements the patterns built from literal characters, [.], the anchors
    [^] and [$], escaped metacharacters and the postfix operators [*], [+] and
    [?] on a single character, over ASCII text. [Compile] refuses every other
    pattern, among them those the full syntax refuses for a repetition
    operator without an argument or an unclosed group. *)
Module MiniRegexp.

Inductive atom : Type :=
  | Lit (c : ascii)
  | AnyChar.

Inductive token : Type :=
  | TAtom (a : atom)
  | TBol | TEol | TStar | TPlus | TQuest.

Inductive item : Type :=
  | Bol | Eol
  | One (a : atom)
  | Star (a : atom)
  | Plus (a : atom)
  | Quest (a : atom).

Definition is_meta (c : ascii) : bool :=
  bool_decide (c ∈ String.list_ascii_of_string "\.+*?()|[]{}^$").

Fixpoint tokens (p : list ascii) : option (list token) :=
  match p with
  | [] => Some []
  | c :: p' =>
      if Ascii.eqb c "\"%char then
        match p' with
        | d :: p'' => if is_meta d then cons (TAtom (Lit d)) <$> tokens p'' else None
        | [] => None
        end
      else if Ascii.eqb c "^"%char then cons TBol <$> tokens p'
      else if Ascii.eqb c "$"%char then cons TEol <$> tokens p'
      else if Ascii.eqb c "."%char then cons (TAtom AnyChar) <$> tokens p'
      else if Ascii.eqb c "*"%char then cons TStar <$> tokens p'
      else if Ascii.eqb c "+"%char then cons TPlus <$> tokens p'
      else if Ascii.eqb c "?"%char then cons TQuest <$> tokens p'
      else if is_meta c then None
      else cons (TAtom (Lit c)) <$> tokens p'
  end.

Fixpoint items (ts : list token) : option (list item) :=
  match ts with
  | [] => Some []
  | TBol :: ts' => cons Bol <$> items ts'
  | TEol :: ts' => cons Eol <$> items ts'
  | TAtom a :: TStar :: ts' => cons (Star a) <$> items ts'
  | TAtom a :: TPlus :: ts' => cons (Plus a) <$> items ts'
  | TAtom a :: TQuest :: ts' => cons (Quest a) <$> items ts'
  | TAtom a :: ts' => cons (One a) <$> items ts'
  | (TStar | TPlus | TQuest) :: _ => None
  end.

Definition parse (pattern : string) : option (list item) :=
  tokens (String.list_ascii_of_string pattern) ≫= items.

Definition atom_match (a : atom) (c : ascii) : bool :=
  match a with
  | Lit d => Ascii.eqb c d
  | AnyChar => negb (Ascii.eqb c "010"%char)
  end.

(** Does a match of the items begin at the head of [text]; [start] tells
    whether that is the beginning of the whole text. *)
Fixpoint match_here (its : list item) (start : bool) (text : list ascii) : bool :=
  let star a rest :=
    fix star (start : bool) (text : list ascii) : bool :=
      match_here rest start text ||
      match text with
      | c :: t => atom_match a c && star false t
      | [] => false
      end in
  match its with
  | [] => true
  | Bol :: rest => start && match_here rest start text
  | Eol :: rest =>
      match text with
      | [] => match_here rest start []
      | _ :: _ => false
      end
  | One a :: rest =>
      match text with
      | c :: t => atom_match a c && match_here rest false t
      | [] => false
      end
  | Star a :: rest => star a rest start text
  | Plus a :: rest =>
      match text with
      | c :: t => atom_match a c && star a rest false t
      | [] => false
      end
  | Quest a :: rest =>
      match_here rest start text ||
      match text with
      | c :: t => atom_match a c && match_here rest false t
      | [] => false
      end
  end.

Fixpoint search (its : list item) (start : bool) (text : list ascii) : bool :=
  match_here its start text ||
  match text with
  | _ :: t => search its false t
  | [] => false
  end.

#[global] Instance engine : RegexpEngine := {|
  Regexp := list item;
  Compile pattern :=
    match parse pattern with
    | Some its => inl its
    | None => inr (ErrNew ("error parsing regexp: `" ++ pattern ++ "`"))
    end;
  MatchString re text := search re true (String.list_ascii_of_string text)
|}.

(** [URL.String] of a URL in origin form, whose path and query need no
    escaping. *)
Definition origin_form (u : URL) : string :=
  Path u ++ (if decide (RawQuery u = "") then "" else "?" ++ RawQuery u).

End MiniRegexp.


(** ** Sample data

    Concrete requests, handlers and rule tables, over the engine of
    [MiniRegexp], on which the properties below are exercised. *)
Module Samples.
Import MiniRegexp.

Definition base_logger : Logger := {| Out := 1; Data := ∅ |}.

(** The slice built from the entries visited in the given order. *)
Definition rules (entries : list (string * Level)) : list patternInfo :=
  match compile_filters entries [] with
  | inl refilters => refilters
  | inr _ => []
  end.

Definition get (path : string) : Request :=
  {| Method := "GET";
     Url := {| Scheme := ""; Path := path; RawQuery := ""; Fragment := "" |};
     Proto := "HTTP/1.1";
     Header := {[ "User-Agent" := ["curl/8.0"] ]};
     Host := "example.org";
     RemoteAddr := "10.0.0.1:4242";
     ctx := ∅ |}.

Definition with_request_id (id : string) (r : Request) : Request :=
  WithContext r (<["request_id" := VString id]> (ctx r)).

Definition boot : World := {| clock := 0; log := []; recorders := [] |}.

(** A handler that answers without setting a status. *)
Definition ok_handler : HandlerFunc := λ w r vars, mret None.

(** A handler that takes 5 ms, sets the status 404 and fails. *)
Definition sleep (nanoseconds : Z) : M unit :=
  λ σ, Returns tt {| clock := clock σ + nanoseconds; log := log σ; recorders := recorders σ |}.

Definition not_found : HandlerFunc := λ w r vars,
  (WriteHeader w 404;; sleep 5000000;; mret (Some (ErrNew "not found"))) : M (option err).

(** A handler that works only once the start entry is the last one logged. *)
Definition after_start : HandlerFunc := λ w r vars σ,
  match last (log σ) with
  | Some e =>
      if decide (entry_message e = "starting request") then Returns None σ
      else Halts (Panic "no start entry") σ
  | None => Halts (Panic "no start entry") σ
  end.


Definition overlapping : gmap string Level :=
  <["^/a" := DebugLevel]> (<["^/ab" := ErrorLevel]> ∅).

Definition broken : gmap string Level :=
  <["^/a" := DebugLevel]> (<["*" := ErrorLevel]> ∅).

End Samples.

(** * Properties *)

Section Properties.
Context `{engine : RegexpEngine}.
Context (sched : Schedule) (URL_String : URL → string).

Lemma BuildFields_unfold (r : Request) :
  BuildFields sched URL_String r = FString <$> delete_empty sched (request_fields URL_String r).
Proof. done. Qed.

Lemma request_fields_unfold (r : Request) :
  request_fields URL_String r =
    <["method" := Method r]>
    (<["path" := URL_String (Url r)]>
    (<["host" := Host r]>
    (<["from" := RemoteAddr r]>
    (<["protocol" := Proto r]>
    (<["referer" := Referer r]>
    (<["user_agent" := UserAgent r]> ∅)))))).
Proof. done. Qed.

Lemma Apply_unfold (l : LoggingMiddleware) (next : HandlerFunc) w r vars :
  Apply sched URL_String l next w r vars =
    (before ← time_Now;
     call_loggerFunc (loglevel_of l r) (emission_logger sched URL_String l r) "starting request";;
     rw ← NewResponseWriter w;
     e ← next (Recording rw) (inner_request l r) vars;
     after ← time_Now;
     status ← Status rw;
     size ← Size rw;
     call_loggerFunc (loglevel_of l r)
       (WithFields (emission_logger sched URL_String l r)
          (completion_fields (effective_status status) before after size))
       "request completed";;
     mret e).
Proof. done. Qed.

Local Abbreviation Apply := (Apply sched URL_String).
Local Abbreviation BuildFields := (BuildFields sched URL_String).
Local Abbreviation request_fields := (request_fields URL_String).
Local Abbreviation emission_logger := (emission_logger sched URL_String).
Local Abbreviation start_entry := (start_entry sched URL_String).
Local Abbreviation inner_world := (inner_world sched URL_String).
Local Abbreviation completed_entry := (completed_entry sched URL_String).

(** *** Construction *)

Lemma compile_filters_inl entries acc refilters :
  compile_filters entries acc = inl refilters →
  ∃ new, refilters = (acc ++ new)%list ∧ Forall2 rule_of entries new.
Proof.
  revert acc. induction entries as [|[pattern lvl] entries IH]; intros acc; simpl.
  - intros [= <-]. exists []. by rewrite app_nil_r.
  - destruct (Compile pattern) as [compiled|e] eqn:Hc; [|done].
    intros (new & -> & Hnew)%IH.
    exists ({| re := compiled; level := lvl |} :: new). split.
    + by rewrite <- app_assoc.
    + constructor; [done|done].
Qed.

Lemma compile_filters_inr entries acc e :
  compile_filters entries acc = inr e →
  ∃ pattern lvl cause, (pattern, lvl) ∈ entries ∧ Compile pattern = inr cause ∧
    e = Notef cause ("invalid regexp '" ++ pattern ++ "'").
Proof.
  revert acc. induction entries as [|[pattern lvl] entries IH]; intros acc; simpl; [done|].
  destruct (Compile pattern) as [compiled|cause] eqn:Hc.
  - intros (p & l' & c & Hin & Hp & ->)%IH. exists p, l', c. split; [by right|done].
  - intros [= <-]. exists pattern, lvl, cause. split; [by left|done].
Qed.

Lemma compile_filters_valid entries acc :
  Forall (λ entry, valid entry.1 = true) entries →
  ∃ refilters, compile_filters entries acc = inl refilters.
Proof.
  intros Hall. revert acc.
  induction Hall as [|[pattern lvl] entries Hv _ IH]; intros acc; simpl; [by eexists|].
  unfold valid in Hv. simpl in Hv. destruct (Compile pattern); [apply IH|done].
Qed.

Lemma compile_filters_invalid entries acc pattern lvl :
  (pattern, lvl) ∈ entries → valid pattern = false →
  ∃ e, compile_filters entries acc = inr e.
Proof.
  intros Hin Hbad. revert acc.
  induction entries as [|[p l'] entries IH]; intros acc; [by apply elem_of_nil in Hin|].
  simpl. destruct (Compile p) as [compiled|cause] eqn:Hc; [|by eexists].
  apply elem_of_cons in Hin as [[= -> ->]|Hin]; [|by apply IH].
  unfold valid in Hbad. by rewrite Hc in Hbad.
Qed.

Lemma elem_of_range {V : Type} (s : Schedule) (m : gmap string V) k v :
  (k, v) ∈ range s m ↔ m !! k = Some v.
Proof.
  unfold range. rewrite (range_order_perm s V (map_to_list m)).
  apply elem_of_map_to_list.
Qed.

(** C2, as the code has it: the rule table has one rule per entry of the
    mapping, in the order in which the loop visited the entries, which is
    some enumeration of the mapping; nothing is dropped, merged or moved. *)
Theorem rules_follow_iteration (lg : Logger) (m : gmap string Level) (mw : LoggingMiddleware) :
  NewLoggingMiddlewareWithFilters sched lg m = (Some mw, None) →
  logger mw = lg ∧
  Forall2 rule_of (range sched m) (filters mw) ∧
  range sched m ≡ₚ map_to_list m ∧
  length (filters mw) = size m.
Proof.
  unfold NewLoggingMiddlewareWithFilters.
  destruct (compile_filters _ _) as [refilters|e] eqn:Hc; [|done].
  intros [= <-]. simpl.
  apply compile_filters_inl in Hc as (new & -> & Hnew). simpl.
  assert (range sched m ≡ₚ map_to_list m) as Hperm by apply range_order_perm.
  repeat split; [done|done|].
  rewrite <- (Forall2_length _ _ _ Hnew), Hperm. apply length_map_to_list.
Qed.

(** C3: construction succeeds when every pattern compiles; when some pattern
    does not, it returns no middleware and the error of an invalid pattern
    of the mapping; and which of the two happens is the same for every
    order of iteration. *)
Theorem construction_succeeds_iff_valid (lg : Logger) (m : gmap string Level) :
  (map_Forall (λ pattern _, valid pattern = true) m →
     ∃ mw, NewLoggingMiddlewareWithFilters sched lg m = (Some mw, None)) ∧
  (∀ pattern lvl, m !! pattern = Some lvl → valid pattern = false →
     ∃ bad cause, is_Some (m !! bad) ∧ Compile bad = inr cause ∧
       NewLoggingMiddlewareWithFilters sched lg m =
         (None, Some (Notef cause ("invalid regexp '" ++ bad ++ "'")))) ∧
  (∀ sched' : Schedule,
     is_Some (NewLoggingMiddlewareWithFilters sched lg m).1 ↔
     is_Some (NewLoggingMiddlewareWithFilters sched' lg m).1).
Proof.
  assert (∀ s : Schedule,
    is_Some (NewLoggingMiddlewareWithFilters s lg m).1 ↔
    map_Forall (λ pattern _, valid pattern = true) m) as Hiff.
  { intros s. unfold NewLoggingMiddlewareWithFilters. split.
    - destruct (compile_filters _ _) as [refilters|e] eqn:Hc; simpl; [intros _|by intros [? [=]]].
      intros pattern lvl Hin. destruct (valid pattern) eqn:Hv; [done|].
      destruct (compile_filters_invalid (range s m) [] pattern lvl) as [e He];
        [by apply elem_of_range|done|congruence].
    - intros Hall.
      destruct (compile_filters_valid (range s m) []) as [refilters ->]; [|by eexists].
      apply Forall_forall. intros [pattern lvl] Hin%elem_of_range. by eapply Hall. }
  split; [|split].
  - intros Hall. apply (Hiff sched) in Hall as [mw Hmw].
    unfold NewLoggingMiddlewareWithFilters in *.
    destruct (compile_filters _ _); [by eexists|done].
  - intros pattern lvl Hin Hbad. unfold NewLoggingMiddlewareWithFilters.
    destruct (compile_filters_invalid (range sched m) [] pattern lvl) as [e He];
      [by apply elem_of_range|done|].
    rewrite He. apply compile_filters_inr in He as (bad & l' & cause & Hbadin & Hc & ->).
    exists bad, cause. split; [|done]. apply elem_of_range in Hbadin. by eexists.
  - intros sched'. by rewrite !Hiff.
Qed.

(** *** Level selection *)

Lemma select_from (path : string) (filters : list patternInfo) (start : Level) :
  foldl (select_step path) start filters =
    from_option level start (last (matching path filters)).
Proof.
  revert start. induction filters as [|info filters IH]; intros start; [done|].
  cbn [foldl]. rewrite IH. unfold select_step, matching. cbn [List.filter].
  destruct (MatchString (re info) path); [|done].
  fold (matching path filters).
  destruct (matching path filters) as [|x xs] eqn:E; [done|].
  rewrite last_cons_cons.
  by assert (is_Some (last (x :: xs))) as [y ->] by (by apply last_is_Some).
Qed.

Lemma SelectLevel_last (filters : list patternInfo) (path : string) :
  SelectLevel filters path = from_option level InfoLevel (last (matching path filters)).
Proof. apply select_from. Qed.

Lemma matching_none (filters : list patternInfo) (path : string) :
  Forall (λ info, MatchString (re info) path = false) filters →
  matching path filters = [].
Proof.
  induction 1 as [|info filters Hinfo _ IH]; [done|].
  unfold matching in *. simpl. by rewrite Hinfo.
Qed.

Lemma SelectLevel_split (before after : list patternInfo) (info : patternInfo) (path : string) :
  MatchString (re info) path = true →
  Forall (λ later, MatchString (re later) path = false) after →
  SelectLevel (before ++ info :: after) path = level info.
Proof.
  intros Hinfo Hafter. rewrite SelectLevel_last. unfold matching.
  rewrite List.filter_app. simpl. rewrite Hinfo.
  fold (matching path after). rewrite (matching_none after path Hafter).
  by rewrite last_snoc.
Qed.

(** C7: a path that no rule of the table matches is logged at Info. *)
Theorem SelectLevel_default (filters : list patternInfo) (path : string) :
  Forall (λ info, MatchString (re info) path = false) filters →
  SelectLevel filters path = InfoLevel.
Proof.
  intros Hnone. rewrite SelectLevel_last, (matching_none filters path Hnone). done.
Qed.

(** *** Request fields *)

Lemma length_zero (v : string) : (String.length v =? 0)%nat = bool_decide (v = "").
Proof. by destruct v. Qed.

Lemma delete_if_empty_lookup (fields : gmap string string) (kv : string * string) (k : string) :
  delete_if_empty fields kv !! k =
    if bool_decide (k = kv.1 ∧ fields !! k = Some "") then None else fields !! k.
Proof.
  unfold delete_if_empty. destruct (fields !! kv.1) as [v|] eqn:Hv.
  - rewrite length_zero. destruct (decide (v = "")) as [->|Hne].
    + rewrite bool_decide_eq_true_2 by done.
      destruct (decide (k = kv.1)) as [->|Hk].
      * rewrite lookup_delete_eq. by rewrite bool_decide_eq_true_2.
      * rewrite lookup_delete_ne by done. rewrite bool_decide_eq_false_2; [done|]. by intros [? _].
    + rewrite bool_decide_eq_false_2 by done.
      rewrite bool_decide_eq_false_2; [done|]. intros [-> Hk]. congruence.
  - rewrite bool_decide_eq_false_2; [done|]. intros [-> Hk]. congruence.
Qed.

(** The loop of lines 75-79 over any sequence of entries: a key loses its
    entry exactly when its value is empty and the loop visits it. *)
Lemma delete_loop_lookup (visited : list (string * string)) (fields : gmap string string) (k : string) :
  foldl delete_if_empty fields visited !! k =
    if bool_decide (k ∈ visited.*1 ∧ fields !! k = Some "") then None else fields !! k.
Proof.
  revert fields. induction visited as [|kv visited IH]; intros fields.
  - cbn [foldl]. case_bool_decide as H; [|done].
    destruct H as [Hin _]. by apply elem_of_nil in Hin.
  - cbn [foldl]. rewrite IH, delete_if_empty_lookup, fmap_cons.
    pose proof (elem_of_cons (visited.*1) k kv.1) as Hcons.
    repeat case_bool_decide; try done; intuition congruence.
Qed.

Lemma delete_empty_lookup (fields : gmap string string) (k : string) :
  delete_empty sched fields !! k =
    match fields !! k with
    | Some v => if decide (v = "") then None else Some v
    | None => None
    end.
Proof.
  unfold delete_empty. rewrite delete_loop_lookup.
  destruct (fields !! k) as [v|] eqn:Hk.
  - destruct (decide (v = "")) as [->|Hne].
    + rewrite bool_decide_eq_true_2; [done|]. split; [|done].
      apply list_elem_of_fmap. exists (k, ""). split; [done|]. by apply elem_of_range.
    + rewrite bool_decide_eq_false_2; [done|]. intros [_ [= ->]]. done.
  - rewrite bool_decide_eq_false_2; [done|]. by intros [_ ?].
Qed.

Lemma BuildFields_lookup (r : Request) (k : string) :
  BuildFields r !! k =
    match request_fields r !! k with
    | Some v => if decide (v = "") then None else Some (FString v)
    | None => None
    end.
Proof.
  rewrite BuildFields_unfold, lookup_fmap, delete_empty_lookup.
  destruct (_ !! k) as [v|]; [|done]. by destruct (decide (v = "")).
Qed.

(** C6: the field set has no empty value; a request without a Referer header
    has no referer field; and a field that is kept holds the value taken from
    the request, as it is. *)
Theorem BuildFields_drops_empty (r : Request) :
  (∀ k, BuildFields r !! k ≠ Some (FString "")) ∧
  (Header r !! "Referer" = None → BuildFields r !! "referer" = None) ∧
  (∀ k x, BuildFields r !! k = Some x →
     k ∈ field_names ∧ ∃ v, x = FString v ∧ v ≠ "" ∧ request_fields r !! k = Some v) ∧
  (∀ k v, request_fields r !! k = Some v → v ≠ "" → BuildFields r !! k = Some (FString v)) ∧
  request_fields r =
    list_to_map [("method", Method r); ("path", URL_String (Url r)); ("host", Host r);
                 ("from", RemoteAddr r); ("protocol", Proto r);
                 ("referer", Header_Get (Header r) "Referer");
                 ("user_agent", Header_Get (Header r) "User-Agent")].
Proof.
  split; [|split; [|split; [|split]]].
  - intros k. rewrite BuildFields_lookup.
    destruct (_ !! k) as [v|]; [|done]. destruct (decide (v = "")); congruence.
  - intros Hnone. rewrite BuildFields_lookup.
    assert (request_fields r !! "referer" = Some "") as ->; [|done].
    rewrite request_fields_unfold. unfold Referer, Header_Get. rewrite Hnone.
    by repeat (rewrite lookup_insert_ne by done); rewrite lookup_insert_eq.
  - intros k x. rewrite BuildFields_lookup.
    destruct (_ !! k) as [v|] eqn:Hk; [|done].
    destruct (decide (v = "")) as [|Hne]; [done|]. intros [= <-].
    split; [|by exists v].
    rewrite request_fields_unfold in Hk. unfold field_names.
    repeat (apply lookup_insert_Some in Hk as [[<- _]|[_ Hk]]; [set_solver|]).
    by rewrite lookup_empty in Hk.
  - intros k v Hk Hne. rewrite BuildFields_lookup, Hk. by destruct (decide (v = "")).
  - done.
Qed.

(** *** The run of the wrapped handler *)

Lemma logf_returns f logger msg σ :
  returns_to_caller f = true →
  logf f logger msg σ =
    Returns tt (record {| entry_func := f; entry_logger := logger; entry_message := msg |} σ).
Proof. by destruct f. Qed.

Lemma logf_halts f logger msg σ :
  returns_to_caller f = false →
  logf f logger msg σ =
    Halts (halt_of f msg)
      (record {| entry_func := f; entry_logger := logger; entry_message := msg |} σ).
Proof. by destruct f. Qed.

(** The run of the wrapped handler, case by case. *)
Lemma Apply_run (l : LoggingMiddleware) (next : HandlerFunc) w r vars σ :
  Apply l next w r vars σ =
    match loggerFuncMap !! loglevel_of l r with
    | None => Halts (Panic "invalid memory address or nil pointer dereference") σ
    | Some f =>
        if returns_to_caller f then
          let rw := length (recorders σ) in
          match next (Recording rw) (inner_request l r) vars (inner_world l r f w σ) with
          | Returns e σ2 =>
              Returns e (record (completed_entry l r f (clock σ) rw σ2) σ2)
          | Halts why σ2 => Halts why σ2
          end
        else Halts (halt_of f "starting request") (record (start_entry l r f) σ)
    end.
Proof.
  unfold Apply, mbind, M_bind, time_Now, call_loggerFunc, loglevel_of. simpl.
  fold (inner_request l r).
  destruct (loggerFuncMap !! _) as [f|] eqn:Hf; [|done].
  destruct (returns_to_caller f) eqn:Hret.
  - rewrite logf_returns by done. simpl.
    unfold inner_world, start_entry, emission_logger, record. simpl.
    destruct (next _ _ _ _) as [e σ2|why σ2]; [|done].
    simpl. rewrite logf_returns by done. done.
  - by rewrite logf_halts.
Qed.

Lemma inner_world_log l r f w σ :
  log (inner_world l r f w σ) = (log σ ++ [start_entry l r f])%list.
Proof. done. Qed.

(** C4: the handler returns exactly when the start entry was emitted by a
    method that returns and the wrapped handler returned; it then returns the
    wrapped handler's error as it is, in the world the wrapped handler left
    with the completion entry added to the log. *)
Theorem Apply_relays_error (l : LoggingMiddleware) (next : HandlerFunc) w r vars σ e σ3 :
  Apply l next w r vars σ = Returns e σ3 ↔
  ∃ f σ2,
    loggerFuncMap !! loglevel_of l r = Some f ∧ returns_to_caller f = true ∧
    next (Recording (length (recorders σ))) (inner_request l r) vars (inner_world l r f w σ)
      = Returns e σ2 ∧
    entry_message (completed_entry l r f (clock σ) (length (recorders σ)) σ2)
      = "request completed" ∧
    σ3 = record (completed_entry l r f (clock σ) (length (recorders σ)) σ2) σ2.
Proof.
  rewrite Apply_run. split.
  - destruct (loggerFuncMap !! _) as [f|]; [|done].
    destruct (returns_to_caller f) eqn:Hret; [|done]. simpl.
    destruct (next _ _ _ _) as [e' σ2|why σ2] eqn:Hnext; [|done].
    intros [= -> <-]. by exists f, σ2.
  - intros (f & σ2 & -> & -> & Hnext & _ & ->). simpl. by rewrite Hnext.
Qed.

(** C5: when the wrapped handler returns, the status field of the completion
    entry is 200 if the recorder shows 0 (no status was set), and the status
    the recorder shows otherwise. *)
Theorem completed_status (l : LoggingMiddleware) (next : HandlerFunc) w r vars σ f e σ2 :
  loggerFuncMap !! loglevel_of l r = Some f →
  returns_to_caller f = true →
  next (Recording (length (recorders σ))) (inner_request l r) vars (inner_world l r f w σ)
    = Returns e σ2 →
  ∃ completed,
    Apply l next w r vars σ = Returns e (record completed σ2) ∧
    entry_message completed = "request completed" ∧
    Data (entry_logger completed) !! "status" =
      Some (FInt (if decide (observed_status (length (recorders σ)) σ2 = 0%Z)
                  then 200%Z
                  else observed_status (length (recorders σ)) σ2)).
Proof.
  intros Hf Hret Hnext.
  exists (completed_entry l r f (clock σ) (length (recorders σ)) σ2).
  split; [|split; [done|]].
  - rewrite Apply_run, Hf, Hret. simpl. by rewrite Hnext.
  - simpl. unfold completion_fields.
    rewrite lookup_union_l' by (rewrite lookup_insert_eq; by eexists).
    rewrite lookup_insert_eq. unfold effective_status.
    destruct (decide _) as [->|Hne]; [done|].
    by apply Z.eqb_neq in Hne as ->.
Qed.

(** [WriteHeader] leaves its status on the recorder it is called on. *)
Lemma write_header_keeps fuel w code (rs : list Recorder) addr :
  rw_status <$> rs !! addr = Some code →
  rw_status <$> write_header fuel w code rs !! addr = Some code.
Proof.
  revert w rs. induction fuel as [|fuel IH]; intros w rs Hrs; [done|].
  destruct w as [id|a]; [done|]. simpl.
  destruct (rs !! a) as [rec|] eqn:Ha; [|done].
  apply IH. destruct (decide (a = addr)) as [->|Hne].
  - rewrite list_lookup_insert_eq; [done|]. by eapply lookup_lt_Some.
  - by rewrite list_lookup_insert_ne.
Qed.

Lemma WriteHeader_observed rw code σ :
  rw < length (recorders σ) →
  ∃ σ', WriteHeader (Recording rw) code σ = Returns tt σ' ∧
    observed_status rw σ' = code ∧ log σ' = log σ ∧ clock σ' = clock σ.
Proof.
  intros Hlt. eexists. split; [done|]. split; [|done].
  unfold observed_status. cbn [recorders].
  destruct (lookup_lt_is_Some_2 (recorders σ) rw Hlt) as [rec Hrec].
  destruct (length (recorders σ)) as [|fuel] eqn:Hlen; [lia|].
  cbn [write_header]. rewrite Hrec.
  rewrite write_header_keeps; [done|].
  rewrite list_lookup_insert_eq; [done|]. lia.
Qed.

(** A handler that sets a status other than 0 and returns: the completion
    entry carries that status. *)
Lemma status_set_by_handler (l : LoggingMiddleware) w r vars σ f code e :
  loggerFuncMap !! loglevel_of l r = Some f →
  returns_to_caller f = true →
  code ≠ 0%Z →
  ∃ σ2 completed,
    Apply l (λ w' _ _, WriteHeader w' code;; mret e) w r vars σ
      = Returns e (record completed σ2) ∧
    entry_message completed = "request completed" ∧
    Data (entry_logger completed) !! "status" = Some (FInt code).
Proof.
  intros Hf Hret Hcode.
  destruct (WriteHeader_observed (length (recorders σ)) code (inner_world l r f w σ))
    as (σ2 & Hw & Hobs & _).
  { simpl. rewrite length_app. simpl. lia. }
  exists σ2, (completed_entry l r f (clock σ) (length (recorders σ)) σ2).
  split; [|split; [done|]].
  - rewrite Apply_run, Hf, Hret. cbn zeta.
    unfold mbind, M_bind. by rewrite Hw.
  - simpl. unfold completion_fields.
    rewrite lookup_union_l' by (rewrite lookup_insert_eq; by eexists).
    rewrite lookup_insert_eq, Hobs. unfold effective_status.
    by apply Z.eqb_neq in Hcode as ->.
Qed.

(** C8: without filters the level is Info whatever the path, and both
    entries are emitted by [Infof]. *)
Theorem no_filters_log_at_Info (lg : Logger) (next : HandlerFunc) w r vars σ :
  let l := NewLoggingMiddleware lg in
  loglevel_of l r = InfoLevel ∧
  ∃ start σ1,
    entry_func start = Infof ∧ entry_message start = "starting request" ∧
    log σ1 = (log σ ++ [start])%list ∧
    match next (Recording (length (recorders σ))) (inner_request l r) vars σ1 with
    | Returns e σ2 =>
        ∃ completed,
          entry_func completed = Infof ∧ entry_message completed = "request completed" ∧
          Apply l next w r vars σ = Returns e (record completed σ2)
    | Halts why σ2 => Apply l next w r vars σ = Halts why σ2
    end.
Proof.
  intros l. split; [done|].
  exists (start_entry l r Infof), (inner_world l r Infof w σ).
  split; [done|]. split; [done|]. split; [done|].
  rewrite Apply_run. change (loggerFuncMap !! loglevel_of l r) with (Some Infof). simpl.
  destruct (next _ _ _ _) as [e σ2|why σ2]; [|done].
  by exists (completed_entry l r Infof (clock σ) (length (recorders σ)) σ2).
Qed.

(** C9: the wrapped handler only ever runs in a world whose last log entry
    is the start entry, and when it returns the completion entry is added
    after everything it left in the log; when the start entry is emitted by a
    method that does not return, the wrapped handler is not run. *)
Theorem start_before_completed_after (l : LoggingMiddleware) (next : HandlerFunc) w r vars σ :
  (∀ next' : HandlerFunc,
     (∀ f rw r' σ1, loggerFuncMap !! loglevel_of l r = Some f →
        last (log σ1) = Some (start_entry l r f) →
        next' rw r' vars σ1 = next rw r' vars σ1) →
     Apply l next' w r vars σ = Apply l next w r vars σ) ∧
  match loggerFuncMap !! loglevel_of l r with
  | Some f =>
      if returns_to_caller f then
        ∃ rw r' σ1,
          log σ1 = (log σ ++ [start_entry l r f])%list ∧
          match next rw r' vars σ1 with
          | Returns e σ2 =>
              ∃ σ3, Apply l next w r vars σ = Returns e σ3 ∧
                log σ3 = (log σ2 ++ [completed_entry l r f (clock σ) (length (recorders σ)) σ2])%list
          | Halts why σ2 => Apply l next w r vars σ = Halts why σ2
          end
      else
        ∀ other : HandlerFunc,
          Apply l other w r vars σ =
            Halts (halt_of f "starting request") (record (start_entry l r f) σ)
  | None =>
      ∀ other : HandlerFunc,
        Apply l other w r vars σ =
          Halts (Panic "invalid memory address or nil pointer dereference") σ
  end.
Proof.
  split.
  - intros next' Hsame. rewrite !Apply_run.
    destruct (loggerFuncMap !! _) as [f|] eqn:Hf; [|done].
    destruct (returns_to_caller f); [|done]. simpl.
    rewrite (Hsame f); [done|done|]. rewrite inner_world_log. apply last_snoc.
  - destruct (loggerFuncMap !! _) as [f|] eqn:Hf.
    + destruct (returns_to_caller f) eqn:Hret.
      * exists (Recording (length (recorders σ))), (inner_request l r), (inner_world l r f w σ).
        split; [done|]. rewrite Apply_run, Hf, Hret. simpl.
        destruct (next _ _ _ _) as [e σ2|why σ2]; [|done]. by eexists.
      * intros other. by rewrite Apply_run, Hf, Hret.
    + intros other. by rewrite Apply_run, Hf.
Qed.

Lemma request_logger_Data (lg : Logger) (r : Request) (k : string) :
  Data (request_logger lg r) !! k =
    match ctx r !! "request_id" with
    | Some (VString id) => if decide (k = "request_id") then Some (FString id) else Data lg !! k
    | _ => Data lg !! k
    end.
Proof.
  unfold request_logger. destruct (ctx r !! "request_id") as [[id|?|?]|]; try done.
  simpl. destruct (decide (k = "request_id")) as [->|Hne].
  - apply lookup_union_Some_l, lookup_singleton_eq.
  - rewrite lookup_union_r; [done|]. by apply lookup_singleton_ne.
Qed.

(** C10: the request handed to the wrapped handler holds, under the key
    [logger], the base logger with the request id added when the incoming
    context has one that is a string; its other fields are those of the base
    logger, so none of the request fields is on it, while the logger used for
    emission carries them. *)
Theorem context_logger (l : LoggingMiddleware) (next : HandlerFunc) w r vars σ :
  let r' := inner_request l r in
  Apply l next w r vars σ = Apply l (λ rw _ vars', next rw r' vars') w r vars σ ∧
  ∃ stored,
    ctx r' !! "logger" = Some (VLogger stored) ∧
    Out stored = Out (logger l) ∧
    (∀ id, ctx r !! "request_id" = Some (VString id) →
       Data stored !! "request_id" = Some (FString id)) ∧
    ((∀ id, ctx r !! "request_id" ≠ Some (VString id)) → stored = logger l) ∧
    (∀ k, k ≠ "request_id" → Data stored !! k = Data (logger l) !! k) ∧
    (∀ k, k ∈ field_names → Data (logger l) !! k = None → Data stored !! k = None) ∧
    (∀ k x, BuildFields r' !! k = Some x → Data (emission_logger l r) !! k = Some x).
Proof.
  intros r'. split; [by rewrite !Apply_run|].
  exists (request_logger (logger l) r). repeat split.
  - subst r'. unfold inner_request, WithContext. simpl. apply lookup_insert_eq.
  - unfold request_logger. by destruct (ctx r !! "request_id") as [[?|?|?]|].
  - intros id Hid. rewrite request_logger_Data, Hid. by rewrite decide_True.
  - intros Hnone. unfold request_logger.
    destruct (ctx r !! "request_id") as [[id|?|?]|] eqn:Hid; try done. by destruct (Hnone id).
  - intros k Hk. rewrite request_logger_Data.
    destruct (ctx r !! "request_id") as [[id|?|?]|]; try done. by rewrite decide_False.
  - intros k Hin Hk. rewrite request_logger_Data.
    destruct (ctx r !! "request_id") as [[id|?|?]|]; try done.
    rewrite decide_False; [done|]. intros ->. unfold field_names in Hin.
    repeat (apply elem_of_cons in Hin as [?|Hin]; [done|]). by apply elem_of_nil in Hin.
  - intros k x Hx. simpl. by apply lookup_union_Some_l.
Qed.

End Properties.

(** * The properties on the sample data *)

Section OnSamples.
Import MiniRegexp Samples.

(** C1: the selected level is that of the last rule, in list position, that
    matches the path, and Info when there is none: a later match replaces an
    earlier one whatever the patterns are. With the rules ^/a at Debug and
    ^/ab at Error, in this order, the path /abc is logged at Error. *)
Theorem last_match_wins :
  (∀ (engine : RegexpEngine) (filters : list patternInfo) (path : string),
     SelectLevel filters path =
       from_option level InfoLevel (last (matching path filters))) ∧
  (∀ (engine : RegexpEngine) (before after : list patternInfo) (info : patternInfo)
     (path : string),
     MatchString (re info) path = true →
     Forall (λ later, MatchString (re later) path = false) after →
     SelectLevel (before ++ info :: after) path = level info) ∧
  (∃ a ab : list item,
     Compile "^/a" = inl a ∧ Compile "^/ab" = inl ab ∧
     MatchString a "/abc" = true ∧ MatchString ab "/abc" = true ∧
     SelectLevel [ {| re := a; level := DebugLevel |};
                   {| re := ab; level := ErrorLevel |} ] "/abc" = ErrorLevel).
Proof.
  split; [|split].
  - intros engine filters path. apply SelectLevel_last.
  - intros engine before after info path. apply SelectLevel_split.
  - eexists _, _. split; [vm_compute; reflexivity|]. split; [vm_compute; reflexivity|].
    by vm_compute.
Qed.

Lemma SelectLevel_default_witness :
  Forall (λ info, MatchString (re info) "/public" = false) (rules [("^/admin", WarnLevel)]) ∧
  SelectLevel (rules [("^/admin", WarnLevel)]) "/public" = InfoLevel.
Proof.
  assert (Forall (λ info, MatchString (re info) "/public" = false)
            (rules [("^/admin", WarnLevel)])) as Hnone.
  { repeat (constructor; [vm_compute; reflexivity|]). constructor. }
  split; [exact Hnone|]. exact (SelectLevel_default _ _ Hnone).
Defined.

(** Scenario A: a rule for ^/admin at Warn. *)
Example admin_rule :
  SelectLevel (rules [("^/admin", WarnLevel)]) "/admin/users" = WarnLevel ∧
  SelectLevel (rules [("^/admin", WarnLevel)]) "/public" = InfoLevel.
Proof. by vm_compute. Qed.

Lemma rules_follow_iteration_witness :
  ∃ mw, NewLoggingMiddlewareWithFilters in_order base_logger overlapping = (Some mw, None) ∧
    (logger mw = base_logger ∧
     Forall2 rule_of (range in_order overlapping) (filters mw) ∧
     range in_order overlapping ≡ₚ map_to_list overlapping ∧
     length (filters mw) = size overlapping).
Proof.
  eexists. split; [vm_compute; reflexivity|].
  apply (rules_follow_iteration in_order). vm_compute; reflexivity.
Defined.

(** The two enumerations of one mapping give two rule tables. *)
Lemma overlapping_both_orders :
  ∃ mw1 mw2,
    NewLoggingMiddlewareWithFilters in_order base_logger overlapping = (Some mw1, None) ∧
    NewLoggingMiddlewareWithFilters in_reverse base_logger overlapping = (Some mw2, None) ∧
    level <$> filters mw1 = [ErrorLevel; DebugLevel] ∧
    level <$> filters mw2 = [DebugLevel; ErrorLevel] ∧
    SelectLevel (filters mw1) "/abc" = DebugLevel ∧
    SelectLevel (filters mw2) "/abc" = ErrorLevel.
Proof.
  eexists _, _. split; [vm_compute; reflexivity|]. split; [vm_compute; reflexivity|].
  by vm_compute.
Qed.

(** C2, as stated, fails: the order of the rule table is not fixed by the
    mapping that is passed. One mapping gives, under two orders of iteration,
    two rule tables with the rules in different order. *)
Lemma rule_order_not_given_by_mapping :
  ¬ (∀ (s1 s2 : Schedule) (lg : Logger) (m : gmap string N) (mw1 mw2 : LoggingMiddleware),
       NewLoggingMiddlewareWithFilters s1 lg m = (Some mw1, None) →
       NewLoggingMiddlewareWithFilters s2 lg m = (Some mw2, None) →
       filters mw1 = filters mw2).
Proof.
  intros Hsame.
  destruct overlapping_both_orders as (mw1 & mw2 & H1 & H2 & Hl1 & Hl2 & _).
  specialize (Hsame _ _ _ _ _ _ H1 H2). rewrite Hsame, Hl2 in Hl1. discriminate.
Qed.

(** A mapping with a pattern that does not compile builds nothing, in either
    order. *)
Example broken_mapping :
  NewLoggingMiddlewareWithFilters in_order base_logger broken =
    (None, Some (Notef (ErrNew "error parsing regexp: `*`") "invalid regexp '*'")) ∧
  NewLoggingMiddlewareWithFilters in_reverse base_logger broken =
    (None, Some (Notef (ErrNew "error parsing regexp: `*`") "invalid regexp '*'")).
Proof. by vm_compute. Qed.

Lemma completed_status_witness :
  let l := NewLoggingMiddleware base_logger in
  let σ1 := inner_world in_order origin_form l (get "/abc") Infof (RawWriter 0) boot in
  loggerFuncMap !! loglevel_of l (get "/abc") = Some Infof ∧
  returns_to_caller Infof = true ∧
  ok_handler (Recording (length (recorders boot))) (inner_request l (get "/abc")) ∅ σ1
    = Returns None σ1 ∧
  ∃ completed,
    Apply in_order origin_form l ok_handler (RawWriter 0) (get "/abc") ∅ boot
      = Returns None (record completed σ1) ∧
    entry_message completed = "request completed" ∧
    Data (entry_logger completed) !! "status" =
      Some (FInt (if decide (observed_status (length (recorders boot)) σ1 = 0%Z)
                  then 200%Z
                  else observed_status (length (recorders boot)) σ1)).
Proof.
  intros l σ1.
  assert (loggerFuncMap !! loglevel_of l (get "/abc") = Some Infof) as Hf by reflexivity.
  assert (returns_to_caller Infof = true) as Hret by reflexivity.
  assert (ok_handler (Recording (length (recorders boot))) (inner_request l (get "/abc")) ∅ σ1
            = Returns None σ1) as Hnext by reflexivity.
  split; [exact Hf|]. split; [exact Hret|]. split; [exact Hnext|].
  exact (completed_status in_order origin_form l ok_handler (RawWriter 0) (get "/abc") ∅
           boot Infof None σ1 Hf Hret Hnext).
Defined.

(** Scenario D, with a handler that sets a status: the error comes back as it
    is, after the completion entry, whose status is the one that was set. *)
Example not_found_run :
  ∃ σ3 started completed,
    Apply in_order origin_form (NewLoggingMiddleware base_logger) not_found
      (RawWriter 0) (with_request_id "r-1" (get "/abc")) ∅ boot
      = Returns (Some (ErrNew "not found")) σ3 ∧
    log σ3 = [started; completed] ∧
    entry_message started = "starting request" ∧
    entry_message completed = "request completed" ∧
    Data (entry_logger completed) !! "status" = Some (FInt 404) ∧
    Data (entry_logger completed) !! "duration" = Some (FSeconds 5000000) ∧
    Data (entry_logger completed) !! "request_id" = Some (FString "r-1") ∧
    Data (entry_logger started) !! "referer" = None.
Proof. eexists _, _, _. split; [vm_compute; reflexivity|]. by vm_compute. Qed.

(** A rule at Fatal: the start entry is emitted, the process exits and the
    wrapped handler is not run. *)
Example fatal_rule_run :
  ∃ σ1 started,
    Apply in_order origin_form
      {| logger := base_logger; filters := rules [("^/", FatalLevel)] |} not_found
      (RawWriter 0) (get "/abc") ∅ boot
      = Halts (Exit 1) σ1 ∧
    log σ1 = [started] ∧ entry_message started = "starting request" ∧ recorders σ1 = [].
Proof. eexists _, _. split; [vm_compute; reflexivity|]. by vm_compute. Qed.

(** A handler that panics unless the start entry is the last one logged
    runs to its end under the middleware. *)
Example after_start_run :
  ∃ σ3,
    Apply in_order origin_form (NewLoggingMiddleware base_logger) after_start
      (RawWriter 0) (get "/abc") ∅ boot = Returns None σ3 ∧
    entry_message <$> log σ3 = ["starting request"; "request completed"] ∧
    after_start (RawWriter 0) (get "/abc") ∅ boot = Halts (Panic "no start entry") boot.
Proof. eexists. split; [vm_compute; reflexivity|]. by vm_compute. Qed.

End OnSamples.

(** * Further properties of the code *)

Section RuleTables.
Context `{engine : RegexpEngine}.

Lemma matching_nil_existsb (filters : list patternInfo) (path : string) :
  matching path filters = [] ↔ existsb (λ info, MatchString (re info) path) filters = false.
Proof.
  unfold matching. induction filters as [|info filters IH]; [done|].
  simpl. destruct (MatchString (re info) path); [done|]. by simpl.
Qed.

(** X1: rules appended to a table decide the level when one of them matches the
    path, and leave it to the table otherwise. *)
Theorem SelectLevel_app (earlier later : list patternInfo) (path : string) :
  SelectLevel (earlier ++ later) path =
    if existsb (λ info, MatchString (re info) path) later
    then SelectLevel later path
    else SelectLevel earlier path.
Proof.
  rewrite !SelectLevel_last. unfold matching at 1. rewrite List.filter_app.
  fold (matching path earlier). fold (matching path later). rewrite last_app.
  destruct (existsb _ later) eqn:Hex.
  - destruct (last (matching path later)) as [info|] eqn:Hlast; [done|].
    apply last_None in Hlast. apply matching_nil_existsb in Hlast. congruence.
  - apply matching_nil_existsb in Hex. by rewrite Hex.
Qed.

Lemma constructed_rules (sched : Schedule) (lg : Logger) (m : gmap string N)
    (mw : LoggingMiddleware) :
  NewLoggingMiddlewareWithFilters sched lg m = (Some mw, None) →
  logger mw = lg ∧ Forall2 rule_of (range sched m) (filters mw).
Proof.
  unfold NewLoggingMiddlewareWithFilters.
  destruct (compile_filters _ _) as [refilters|e] eqn:Hc; [|done].
  intros [= <-]. apply compile_filters_inl in Hc as (new & -> & Hnew). done.
Qed.

(** Every rule of a constructed table comes from an entry of the mapping. *)
Lemma rule_has_entry (sched : Schedule) (lg : Logger) (m : gmap string N)
    (mw : LoggingMiddleware) (info : patternInfo) :
  NewLoggingMiddlewareWithFilters sched lg m = (Some mw, None) →
  info ∈ filters mw →
  ∃ pattern, m !! pattern = Some (level info) ∧ Compile pattern = inl (re info).
Proof.
  intros [_ Hrules]%constructed_rules [i Hi]%list_elem_of_lookup.
  destruct (Forall2_lookup_r _ _ _ _ _ Hrules Hi) as ([pattern lvl] & Hentry & Hc & Hlvl).
  simpl in *. exists pattern. split; [|done].
  rewrite Hlvl. eapply elem_of_range, list_elem_of_lookup. eauto.
Qed.

(** Every entry of the mapping has its rule in a constructed table. *)
Lemma entry_has_rule (sched : Schedule) (lg : Logger) (m : gmap string N)
    (mw : LoggingMiddleware) (pattern : string) (lvl : N) :
  NewLoggingMiddlewareWithFilters sched lg m = (Some mw, None) →
  m !! pattern = Some lvl →
  ∃ info, info ∈ filters mw ∧ Compile pattern = inl (re info) ∧ level info = lvl.
Proof.
  intros [_ Hrules]%constructed_rules [i Hi]%(elem_of_range sched)%list_elem_of_lookup.
  destruct (Forall2_lookup_l _ _ _ _ _ Hrules Hi) as (info & Hinfo & Hc & Hlvl).
  exists info. split; [|done]. eapply list_elem_of_lookup. eauto.
Qed.

Lemma last_matching_elem (filters : list patternInfo) (path : string) (info : patternInfo) :
  last (matching path filters) = Some info →
  info ∈ filters ∧ MatchString (re info) path = true.
Proof.
  intros Hlast%last_Some_elem_of. apply list_elem_of_In in Hlast.
  apply List.filter_In in Hlast as [Hin Hm]. split; [by apply list_elem_of_In|done].
Qed.

Lemma matching_nil_elem (filters : list patternInfo) (path : string) (info : patternInfo) :
  matching path filters = [] → info ∈ filters → MatchString (re info) path = false.
Proof.
  intros Hnil Hin. destruct (MatchString (re info) path) eqn:Hm; [|done].
  assert (In info (matching path filters)) as Hbad.
  { apply List.filter_In. split; [by apply list_elem_of_In|done]. }
  rewrite Hnil in Hbad. destruct Hbad.
Qed.

(** X2: whatever the order of iteration, the level selected with a constructed
    table is Info when no pattern of the mapping matches the path, and
    otherwise the level that the mapping gives to one of the patterns that
    match. *)
Theorem selected_level_from_mapping (sched : Schedule) (lg : Logger) (m : gmap string N)
    (mw : LoggingMiddleware) (path : string) :
  NewLoggingMiddlewareWithFilters sched lg m = (Some mw, None) →
  (SelectLevel (filters mw) path = InfoLevel ∧
   ∀ pattern lvl rx, m !! pattern = Some lvl → Compile pattern = inl rx →
     MatchString rx path = false) ∨
  (∃ pattern rx, m !! pattern = Some (SelectLevel (filters mw) path) ∧
     Compile pattern = inl rx ∧ MatchString rx path = true).
Proof.
  intros Hnew. rewrite SelectLevel_last.
  destruct (last (matching path (filters mw))) as [info|] eqn:Hlast.
  - right. apply last_matching_elem in Hlast as [Hin Hm].
    destruct (rule_has_entry _ _ _ _ _ Hnew Hin) as (pattern & Hp & Hc).
    by exists pattern, (re info).
  - left. split; [done|]. intros pattern lvl rx Hp Hc.
    destruct (entry_has_rule _ _ _ _ _ _ Hnew Hp) as (info & Hin & Hc' & _).
    rewrite Hc in Hc'. injection Hc' as ->.
    apply last_None in Hlast. by eapply matching_nil_elem.
Qed.


Lemma compile_filters_stops (visited rest : list (string * N)) (acc : list patternInfo)
    (pattern : string) (lvl : N) (cause : err) :
  Forall (λ entry, valid entry.1 = true) visited →
  Compile pattern = inr cause →
  compile_filters (visited ++ (pattern, lvl) :: rest) acc =
    inr (Notef cause ("invalid regexp '" ++ pattern ++ "'")).
Proof.
  intros Hvalid Hbad. revert acc.
  induction Hvalid as [|[p l'] visited Hp _ IH]; intros acc; simpl.
  - by rewrite Hbad.
  - unfold valid in Hp. simpl in Hp. destruct (Compile p); [apply IH|done].
Qed.

(** X4: the error of a failed construction is that of the first pattern, in the
    order of iteration, that does not compile; the patterns after it are not
    looked at. *)
Theorem first_invalid_pattern_reported (sched : Schedule) (lg : Logger) (m : gmap string N)
    (visited rest : list (string * N)) (pattern : string) (lvl : N) (cause : err) :
  range sched m = (visited ++ (pattern, lvl) :: rest)%list →
  Forall (λ entry, valid entry.1 = true) visited →
  Compile pattern = inr cause →
  NewLoggingMiddlewareWithFilters sched lg m =
    (None, Some (Notef cause ("invalid regexp '" ++ pattern ++ "'"))).
Proof.
  intros Hrange Hvalid Hbad. unfold NewLoggingMiddlewareWithFilters.
  by rewrite Hrange, (compile_filters_stops _ _ _ _ _ _ Hvalid Hbad).
Qed.

(** X5: an empty mapping builds the middleware that [NewLoggingMiddleware]
    builds. *)
Theorem empty_mapping (sched : Schedule) (lg : Logger) :
  NewLoggingMiddlewareWithFilters sched lg ∅ = (Some (NewLoggingMiddleware lg), None).
Proof.
  unfold NewLoggingMiddlewareWithFilters, range. rewrite map_to_list_empty.
  assert (range_order sched N [] = []) as ->; [|done].
  apply Permutation_nil_r, range_order_perm.
Qed.

(** X6: a mapping with one pattern gives, in any order of iteration, the table
    with its one rule: a path that the pattern matches is logged at the
    level of the mapping, any other path at Info. *)
Theorem single_rule_table (sched : Schedule) (lg : Logger) (pattern : string) (lvl : N)
    (rx : Regexp) (path : string) :
  Compile pattern = inl rx →
  ∃ mw,
    NewLoggingMiddlewareWithFilters sched lg {[ pattern := lvl ]} = (Some mw, None) ∧
    filters mw = [ {| re := rx; level := lvl |} ] ∧
    SelectLevel (filters mw) path = if MatchString rx path then lvl else InfoLevel.
Proof.
  intros Hc. unfold NewLoggingMiddlewareWithFilters, range.
  rewrite map_to_list_singleton.
  assert (range_order sched N [(pattern, lvl)] = [(pattern, lvl)]) as ->.
  { apply Permutation_singleton_r, range_order_perm. }
  simpl. rewrite Hc. by eexists.
Qed.

End RuleTables.

Section Handlers.
Context `{engine : RegexpEngine}.
Context (sched : Schedule) (URL_String : URL → string).

Local Abbreviation Apply := (Apply sched URL_String).
Local Abbreviation BuildFields := (BuildFields sched URL_String).
Local Abbreviation request_fields := (request_fields URL_String).
Local Abbreviation emission_logger := (emission_logger sched URL_String).
Local Abbreviation start_entry := (start_entry sched URL_String).
Local Abbreviation inner_world := (inner_world sched URL_String).
Local Abbreviation completed_entry := (completed_entry sched URL_String).

Lemma loggerFuncMap_above (lvl : N) : (5 < lvl)%N → loggerFuncMap !! lvl = None.
Proof.
  intros Hlvl. unfold loggerFuncMap, DebugLevel, InfoLevel, WarnLevel, ErrorLevel,
    FatalLevel, PanicLevel.
  repeat (rewrite lookup_insert_ne by lia). apply lookup_empty.
Qed.

Lemma loggerFuncMap_below (lvl : N) :
  (lvl < 2)%N →
  loggerFuncMap !! lvl = Some (if decide (lvl = FatalLevel) then Fatalf else Panicf).
Proof.
  intros Hlvl. assert (lvl = 0 ∨ lvl = 1)%N as [-> | ->] by lia; reflexivity.
Qed.

(** X7: a level above Debug has no entry in [loggerFuncMap]: when such a level is
    selected the handler panics on the nil function before anything is
    logged, and neither the recorder nor the wrapped handler is reached. *)
Theorem unknown_level_panics (l : LoggingMiddleware) (next : HandlerFunc) w r vars σ :
  (5 < loglevel_of l r)%N →
  Apply l next w r vars σ =
    Halts (Panic "invalid memory address or nil pointer dereference") σ.
Proof. intros Hlvl. by rewrite Apply_run, loggerFuncMap_above. Qed.

(** X8: when the level selected is Fatal or Panic, the start entry is emitted and
    the process exits with code 1, or panics: no recorder is allocated, the
    wrapped handler is not run and no completion entry is emitted. *)
Theorem fatal_and_panic_stop_at_start (l : LoggingMiddleware) (next : HandlerFunc) w r vars σ :
  (loglevel_of l r < 2)%N →
  ∃ started σ',
    Apply l next w r vars σ =
      Halts (if decide (loglevel_of l r = FatalLevel) then Exit 1
             else Panic "starting request") σ' ∧
    log σ' = (log σ ++ [started])%list ∧
    recorders σ' = recorders σ ∧
    entry_message started = "starting request" ∧
    entry_func started = (if decide (loglevel_of l r = FatalLevel) then Fatalf else Panicf).
Proof.
  intros Hlvl. rewrite Apply_run, (loggerFuncMap_below _ Hlvl).
  destruct (decide _); simpl; eexists _, _; (split; [reflexivity|done]).
Qed.

(** X9: a wrapped handler that does not return (it panics, exits or blocks)
    stops the middleware in the same way, in the world it left: no completion
    entry is emitted and nothing is recovered. *)
Theorem inner_halt_propagates (l : LoggingMiddleware) (next : HandlerFunc) w r vars σ f why σ2 :
  loggerFuncMap !! loglevel_of l r = Some f →
  returns_to_caller f = true →
  next (Recording (length (recorders σ))) (inner_request l r) vars (inner_world l r f w σ)
    = Halts why σ2 →
  Apply l next w r vars σ = Halts why σ2.
Proof. intros Hf Hret Hnext. rewrite Apply_run, Hf, Hret. simpl. by rewrite Hnext. Qed.

Lemma completion_fields_other (status before after size : Z) (k : string) :
  k ∉ ["status"; "duration"; "bytes"] →
  completion_fields status before after size !! k = None.
Proof.
  intros Hk. unfold completion_fields.
  rewrite !lookup_insert_ne; [apply lookup_empty|..]; intros <-; apply Hk;
    repeat first [by left | right].
Qed.

(** X10: the completion entry is emitted by the method that emitted the start
    entry, on the same logger with three fields added: the duration is the
    time from the entry into the middleware to the return of the wrapped
    handler, the bytes are the recorder's count, and every other field is
    that of the start entry. *)
Theorem completion_entry_fields (l : LoggingMiddleware) (next : HandlerFunc) w r vars σ f e σ2 :
  loggerFuncMap !! loglevel_of l r = Some f →
  returns_to_caller f = true →
  next (Recording (length (recorders σ))) (inner_request l r) vars (inner_world l r f w σ)
    = Returns e σ2 →
  ∃ completed,
    Apply l next w r vars σ = Returns e (record completed σ2) ∧
    entry_func completed = f ∧
    Out (entry_logger completed) = Out (logger l) ∧
    Data (entry_logger completed) !! "duration" = Some (FSeconds (clock σ2 - clock σ)) ∧
    Data (entry_logger completed) !! "bytes" =
      Some (FInt (observed_size (length (recorders σ)) σ2)) ∧
    ∀ k, k ∉ ["status"; "duration"; "bytes"] →
      Data (entry_logger completed) !! k = Data (entry_logger (start_entry l r f)) !! k.
Proof.
  intros Hf Hret Hnext.
  exists (completed_entry l r f (clock σ) (length (recorders σ)) σ2).
  split; [by rewrite Apply_run, Hf, Hret; simpl; rewrite Hnext|].
  split; [done|]. split.
  { simpl. unfold request_logger. by destruct (ctx r !! "request_id") as [[?|?|?]|]. }
  split; [|split].
  - simpl. by apply lookup_union_Some_l.
  - simpl. by apply lookup_union_Some_l.
  - intros k Hk. simpl. rewrite (lookup_union_r (completion_fields _ _ _ _)); [done|].
    by apply completion_fields_other.
Qed.

Lemma request_fields_keys (r : Request) (k : string) (v : string) :
  request_fields r !! k = Some v → k ∈ field_names.
Proof.
  rewrite request_fields_unfold. unfold field_names. intros Hk.
  repeat (apply lookup_insert_Some in Hk as [[<- _]|[_ Hk]];
          [repeat first [by left | right]|]).
  by rewrite lookup_empty in Hk.
Qed.

(** X12: the fields the entries carry: a request value that is not empty is
    logged under its name, shadowing a field of that name on the base logger;
    an empty one is left out, so that a field of that name on the base logger
    shows; the request id of the context shadows one on the base logger, and
    a value that is not a string is ignored. *)
Theorem emitted_fields (l : LoggingMiddleware) (r : Request) :
  (∀ k v, request_fields r !! k = Some v →
     Data (emission_logger l r) !! k =
       if decide (v = "") then Data (logger l) !! k else Some (FString v)) ∧
  Data (emission_logger l r) !! "request_id" =
    match ctx r !! "request_id" with
    | Some (VString id) => Some (FString id)
    | _ => Data (logger l) !! "request_id"
    end ∧
  (∀ k, k ∉ "request_id" :: field_names →
     Data (emission_logger l r) !! k = Data (logger l) !! k).
Proof.
  assert (∀ k, Data (emission_logger l r) !! k =
            union_with (λ x _, Some x) (BuildFields (inner_request l r) !! k)
              (Data (request_logger (logger l) r) !! k)) as Hdata.
  { intros k. simpl. apply lookup_union. }
  assert (∀ k, BuildFields (inner_request l r) !! k =
            match request_fields r !! k with
            | Some v => if decide (v = "") then None else Some (FString v)
            | None => None
            end) as Hbuilt.
  { intros k. by rewrite BuildFields_lookup. }
  split; [|split].
  - intros k v Hk. rewrite Hdata, Hbuilt, Hk.
    destruct (decide (v = "")) as [->|Hne]; [|by destruct (Data _ !! k)].
    rewrite request_logger_Data.
    assert (k ≠ "request_id") as Hid.
    { intros ->. apply request_fields_keys in Hk. unfold field_names in Hk.
      repeat (apply elem_of_cons in Hk as [?|Hk]; [done|]). by apply elem_of_nil in Hk. }
    destruct (ctx r !! "request_id") as [[id|?|?]|];
      rewrite ?decide_False by done; by destruct (Data (logger l) !! k).
  - rewrite Hdata, Hbuilt. rewrite request_fields_unfold.
    repeat (rewrite lookup_insert_ne by done). rewrite lookup_empty.
    rewrite request_logger_Data.
    destruct (ctx r !! "request_id") as [[id|?|?]|];
      rewrite ?decide_True by done; by destruct (Data (logger l) !! "request_id").
  - intros k Hk. rewrite Hdata, Hbuilt.
    destruct (request_fields r !! k) as [v|] eqn:Hv.
    { exfalso. apply Hk. right. by eapply request_fields_keys. }
    rewrite request_logger_Data.
    assert (k ≠ "request_id") as Hid by (intros ->; apply Hk; by left).
    destruct (ctx r !! "request_id") as [[id|?|?]|];
      rewrite ?decide_False by done; by destruct (Data (logger l) !! k).
Qed.

(** X11: a wrapped handler that returns without touching its writer is logged
    with the status 200 and 0 bytes. *)
Theorem untouched_writer_logged_as_200 (l : LoggingMiddleware) (next : HandlerFunc)
    w r vars σ f e σ2 :
  loggerFuncMap !! loglevel_of l r = Some f →
  returns_to_caller f = true →
  next (Recording (length (recorders σ))) (inner_request l r) vars (inner_world l r f w σ)
    = Returns e σ2 →
  recorders σ2 !! length (recorders σ) =
    recorders (inner_world l r f w σ) !! length (recorders σ) →
  ∃ completed,
    Apply l next w r vars σ = Returns e (record completed σ2) ∧
    Data (entry_logger completed) !! "status" = Some (FInt 200) ∧
    Data (entry_logger completed) !! "bytes" = Some (FInt 0).
Proof.
  intros Hf Hret Hnext Hsame.
  assert (recorders σ2 !! length (recorders σ) =
            Some {| underlying := w; rw_status := 0; rw_size := 0 |}) as Hrec.
  { rewrite Hsame. simpl. apply list_lookup_middle. done. }
  exists (completed_entry l r f (clock σ) (length (recorders σ)) σ2).
  split; [by rewrite Apply_run, Hf, Hret; simpl; rewrite Hnext|].
  simpl. unfold observed_status, observed_size. rewrite Hrec. simpl.
  split; by apply lookup_union_Some_l.
Qed.

End Handlers.

Section Composition.
Context `{engine : RegexpEngine}.
Context (URL_String : URL → string).

Lemma BuildFields_any_order (s1 s2 : Schedule) (r : Request) :
  BuildFields s1 URL_String r = BuildFields s2 URL_String r.
Proof. apply map_eq. intros k. by rewrite !BuildFields_lookup. Qed.

(** X13: the order in which the loop of lines 75-79 visits the fields does not
    show: the handler behaves the same under any two orders. *)
Theorem field_order_does_not_show (s1 s2 : Schedule) (l : LoggingMiddleware)
    (next : HandlerFunc) w r vars σ :
  Apply s1 URL_String l next w r vars σ = Apply s2 URL_String l next w r vars σ.
Proof.
  rewrite !Apply_unfold. unfold emission_logger.
  by rewrite (BuildFields_any_order s1 s2).
Qed.

Context (sched : Schedule).

Local Abbreviation Apply := (Apply sched URL_String).
Local Abbreviation start_entry := (start_entry sched URL_String).
Local Abbreviation inner_world := (inner_world sched URL_String).
Local Abbreviation completed_entry := (completed_entry sched URL_String).

Lemma request_logger_inner (lg : Logger) (l : LoggingMiddleware) (r : Request) :
  request_logger lg (inner_request l r) = request_logger lg r.
Proof.
  unfold request_logger, inner_request, WithContext. simpl.
  by rewrite lookup_insert_ne.
Qed.

(** X14: two middlewares, one around the other: the entries are nested (start of
    the outer, start of the inner, the handler, completion of the inner,
    completion of the outer), the handler finds the inner middleware's logger
    in its context, and its error comes back through both. *)
Theorem nested_middlewares (outer inner : LoggingMiddleware) (next : HandlerFunc)
    w r vars σ f1 f2 e σ2 :
  let n := length (recorders σ) in
  let r1 := inner_request outer r in
  let r2 := inner_request inner r1 in
  let σ1 := inner_world inner r1 f2 (Recording n) (inner_world outer r f1 w σ) in
  loggerFuncMap !! loglevel_of outer r = Some f1 → returns_to_caller f1 = true →
  loggerFuncMap !! loglevel_of inner r = Some f2 → returns_to_caller f2 = true →
  next (Recording (S n)) r2 vars σ1 = Returns e σ2 →
  log σ1 = (log σ ++ [start_entry outer r f1; start_entry inner r1 f2])%list ∧
  ctx r2 !! "logger" = Some (VLogger (request_logger (logger inner) r)) ∧
  ∃ c2 c1 σ4,
    Apply outer (Apply inner next) w r vars σ = Returns e σ4 ∧
    log σ4 = (log σ2 ++ [c2; c1])%list ∧
    entry_message c2 = "request completed" ∧ entry_message c1 = "request completed" ∧
    entry_func c2 = f2 ∧ entry_func c1 = f1 ∧
    Out (entry_logger c2) = Out (logger inner) ∧ Out (entry_logger c1) = Out (logger outer).
Proof.
  intros n r1 r2 σ1 Hf1 Hret1 Hf2 Hret2 Hnext.
  split; [|split].
  - subst σ1. simpl. by rewrite <- app_assoc.
  - subst r2 r1. unfold inner_request at 1. simpl.
    rewrite lookup_insert_eq. by rewrite request_logger_inner.
  - set (c2 := completed_entry inner r1 f2 (clock σ) (S n) σ2).
    set (c1 := completed_entry outer r f1 (clock σ) n (record c2 σ2)).
    exists c2, c1, (record c1 (record c2 σ2)).
    split; [|split].
    + subst c1 c2 σ1 r2 r1 n.
      rewrite Apply_run, Hf1, Hret1. cbn zeta.
      rewrite (Apply_run sched URL_String inner next).
      change (loglevel_of inner (inner_request outer r)) with (loglevel_of inner r).
      rewrite Hf2, Hret2. cbn zeta.
      assert (length (recorders (inner_world outer r f1 w σ)) = S (length (recorders σ))) as ->.
      { simpl. rewrite length_app. simpl. lia. }
      by rewrite Hnext.
    + simpl. by rewrite <- app_assoc.
    + repeat split; simpl; unfold request_logger;
        by repeat match goal with |- context [ctx ?x !! ?k] => destruct (ctx x !! k) as [[?|?|?]|] end.
Qed.

End Composition.

Section FurtherOnSamples.
Import MiniRegexp Samples.

Lemma selected_level_from_mapping_witness :
  ∃ mw, NewLoggingMiddlewareWithFilters in_order base_logger overlapping = (Some mw, None) ∧
    ((SelectLevel (filters mw) "/abc" = InfoLevel ∧
      ∀ pattern lvl rx, overlapping !! pattern = Some lvl → Compile pattern = inl rx →
        MatchString rx "/abc" = false) ∨
     (∃ pattern rx, overlapping !! pattern = Some (SelectLevel (filters mw) "/abc") ∧
        Compile pattern = inl rx ∧ MatchString rx "/abc" = true)).
Proof.
  eexists. split; [vm_compute; reflexivity|].
  apply (selected_level_from_mapping in_order base_logger). vm_compute; reflexivity.
Defined.


Lemma first_invalid_pattern_reported_witness :
  range in_order broken = ([("^/a", DebugLevel)] ++ ("*", ErrorLevel) :: [])%list ∧
  NewLoggingMiddlewareWithFilters in_order base_logger broken =
    (None, Some (Notef (ErrNew "error parsing regexp: `*`") ("invalid regexp '" ++ "*" ++ "'"))).
Proof.
  split; [vm_compute; reflexivity|].
  apply (first_invalid_pattern_reported in_order base_logger broken
           [("^/a", DebugLevel)] [] "*" ErrorLevel).
  - vm_compute; reflexivity.
  - repeat constructor.
  - vm_compute; reflexivity.
Defined.

Lemma unknown_level_panics_witness :
  let l := {| logger := base_logger; filters := rules [("^/", 6%N)] |} in
  (5 < loglevel_of l (get "/abc"))%N ∧
  Apply in_order origin_form l not_found (RawWriter 0) (get "/abc") ∅ boot =
    Halts (Panic "invalid memory address or nil pointer dereference") boot.
Proof.
  intros l.
  assert (5 < loglevel_of l (get "/abc"))%N as Hlvl by (vm_compute; reflexivity).
  split; [exact Hlvl|].
  exact (unknown_level_panics in_order origin_form l not_found (RawWriter 0) (get "/abc")
           ∅ boot Hlvl).
Defined.

Lemma fatal_and_panic_stop_at_start_witness :
  let l := {| logger := base_logger; filters := rules [("^/", FatalLevel)] |} in
  (loglevel_of l (get "/abc") < 2)%N ∧
  ∃ started σ',
    Apply in_order origin_form l not_found (RawWriter 0) (get "/abc") ∅ boot =
      Halts (if decide (loglevel_of l (get "/abc") = FatalLevel) then Exit 1
             else Panic "starting request") σ' ∧
    log σ' = (log boot ++ [started])%list ∧
    recorders σ' = recorders boot ∧
    entry_message started = "starting request" ∧
    entry_func started =
      (if decide (loglevel_of l (get "/abc") = FatalLevel) then Fatalf else Panicf).
Proof.
  intros l.
  assert (loglevel_of l (get "/abc") < 2)%N as Hlvl by (vm_compute; reflexivity).
  split; [exact Hlvl|].
  exact (fatal_and_panic_stop_at_start in_order origin_form l not_found (RawWriter 0)
           (get "/abc") ∅ boot Hlvl).
Defined.

Lemma inner_halt_propagates_witness :
  let l := NewLoggingMiddleware base_logger in
  let crash : HandlerFunc := λ _ _ _ σ, Halts (Panic "boom") σ in
  let σ1 := inner_world in_order origin_form l (get "/abc") Infof (RawWriter 0) boot in
  Apply in_order origin_form l crash (RawWriter 0) (get "/abc") ∅ boot =
    Halts (Panic "boom") σ1.
Proof.
  intros l crash σ1.
  apply (inner_halt_propagates in_order origin_form l crash (RawWriter 0) (get "/abc")
           ∅ boot Infof); reflexivity.
Defined.

Lemma completion_entry_fields_witness :
  let l := NewLoggingMiddleware base_logger in
  let r := with_request_id "r-1" (get "/abc") in
  ∃ σ2,
    not_found (Recording (length (recorders boot))) (inner_request l r) ∅
      (inner_world in_order origin_form l r Infof (RawWriter 0) boot)
      = Returns (Some (ErrNew "not found")) σ2 ∧
    ∃ completed,
      Apply in_order origin_form l not_found (RawWriter 0) r ∅ boot
        = Returns (Some (ErrNew "not found")) (record completed σ2) ∧
      entry_func completed = Infof ∧
      Out (entry_logger completed) = Out (logger l) ∧
      Data (entry_logger completed) !! "duration" = Some (FSeconds (clock σ2 - clock boot)) ∧
      Data (entry_logger completed) !! "bytes" =
        Some (FInt (observed_size (length (recorders boot)) σ2)) ∧
      ∀ k, k ∉ ["status"; "duration"; "bytes"] →
        Data (entry_logger completed) !! k =
          Data (entry_logger (start_entry in_order origin_form l r Infof)) !! k.
Proof.
  intros l r. eexists. split; [vm_compute; reflexivity|].
  apply (completion_entry_fields in_order origin_form l not_found (RawWriter 0) r ∅ boot Infof).
  - reflexivity.
  - reflexivity.
  - vm_compute; reflexivity.
Defined.

Lemma nested_middlewares_witness :
  let outer := NewLoggingMiddleware base_logger in
  let inner := NewLoggingMiddleware {| Out := 2; Data := ∅ |} in
  let r := get "/abc" in
  let r1 := inner_request outer r in
  let r2 := inner_request inner r1 in
  let σ1 := inner_world in_order origin_form inner r1 Infof (Recording 0)
              (inner_world in_order origin_form outer r Infof (RawWriter 0) boot) in
  ok_handler (Recording 1) r2 ∅ σ1 = Returns None σ1 ∧
  log σ1 = (log boot ++ [start_entry in_order origin_form outer r Infof;
                         start_entry in_order origin_form inner r1 Infof])%list ∧
  ctx r2 !! "logger" = Some (VLogger (request_logger (logger inner) r)) ∧
  ∃ c2 c1 σ4,
    Apply in_order origin_form outer (Apply in_order origin_form inner ok_handler)
      (RawWriter 0) r ∅ boot = Returns None σ4 ∧
    log σ4 = (log σ1 ++ [c2; c1])%list ∧
    entry_message c2 = "request completed" ∧ entry_message c1 = "request completed" ∧
    entry_func c2 = Infof ∧ entry_func c1 = Infof ∧
    Out (entry_logger c2) = Out (logger inner) ∧ Out (entry_logger c1) = Out (logger outer).
Proof.
  intros outer inner r r1 r2 σ1.
  assert (ok_handler (Recording 1) r2 ∅ σ1 = Returns None σ1) as Hnext by reflexivity.
  split; [exact Hnext|].
  exact (nested_middlewares origin_form in_order outer inner ok_handler (RawWriter 0) r ∅
           boot Infof Infof None σ1 eq_refl eq_refl eq_refl eq_refl Hnext).
Defined.

(** Two patterns that do not compile: which one the error names depends on
    the order of iteration. *)
Example error_names_first_visited :
  let m : gmap string N := <["*" := DebugLevel]> (<["+" := ErrorLevel]> ∅) in
  ∃ e1 e2,
    NewLoggingMiddlewareWithFilters in_order base_logger m = (None, Some e1) ∧
    NewLoggingMiddlewareWithFilters in_reverse base_logger m = (None, Some e2) ∧
    e1 ≠ e2.
Proof. intros m. eexists _, _. split; [vm_compute; reflexivity|]. split; [vm_compute; reflexivity|]. done. Qed.

Lemma single_rule_table_witness :
  ∃ rx, Compile "^/admin" = inl rx ∧
    ∃ mw,
      NewLoggingMiddlewareWithFilters in_reverse base_logger {[ "^/admin" := WarnLevel ]}
        = (Some mw, None) ∧
      filters mw = [ {| re := rx; level := WarnLevel |} ] ∧
      SelectLevel (filters mw) "/admin/users" =
        if MatchString rx "/admin/users" then WarnLevel else InfoLevel.
Proof.
  eexists. split; [vm_compute; reflexivity|].
  apply (single_rule_table in_reverse base_logger "^/admin" WarnLevel). vm_compute; reflexivity.
Defined.

Lemma untouched_writer_logged_as_200_witness :
  let l := NewLoggingMiddleware base_logger in
  let σ1 := inner_world in_order origin_form l (get "/abc") Infof (RawWriter 0) boot in
  ok_handler (Recording (length (recorders boot))) (inner_request l (get "/abc")) ∅ σ1
    = Returns None σ1 ∧
  ∃ completed,
    Apply in_order origin_form l ok_handler (RawWriter 0) (get "/abc") ∅ boot
      = Returns None (record completed σ1) ∧
    Data (entry_logger completed) !! "status" = Some (FInt 200) ∧
    Data (entry_logger completed) !! "bytes" = Some (FInt 0).
Proof.
  intros l σ1.
  assert (ok_handler (Recording (length (recorders boot))) (inner_request l (get "/abc")) ∅ σ1
            = Returns None σ1) as Hnext by reflexivity.
  split; [exact Hnext|].
  exact (untouched_writer_logged_as_200 in_order origin_form l ok_handler (RawWriter 0)
           (get "/abc") ∅ boot Infof None σ1 eq_refl eq_refl Hnext eq_refl).
Defined.

End FurtherOnSamples.
